(** * Word-chaining game: the turn engines of [app.py] and [main.py]

    [app.py] is the one-player game, [main.py] the two-player game.  Both
    keep their game state in Streamlit's [st.session_state] and process one
    submitted word per run of [main()].  The development below embeds the
    session state as a record, the body of the submit button as a function
    from a session and the text field's value to the next session, and
    proves the properties of the turn engine. *)

From Stdlib Require Import List Bool NArith ZArith Lia String Ascii.
Import ListNotations.

Set Implicit Arguments.

(** ** Python strings *)

Module PyStr.

Local Open Scope N_scope.

(** A Python [str] is a sequence of Unicode code points. *)
Definition codepoint := N.
Definition str := list codepoint.

(** [s == t] on [str]: exact, case-sensitive comparison. *)
Fixpoint str_eqb (s t : str) : bool :=
  match s, t with
  | [], [] => true
  | c :: s', d :: t' => N.eqb c d && str_eqb s' t'
  | _, _ => false
  end.

(** [w in l] for a list of strings. *)
Definition contains (w : str) (l : list str) : bool :=
  existsb (str_eqb w) l.

(** Truthiness of a string: [if s:] holds exactly when [s] is not empty. *)
Definition truthy (s : str) : bool :=
  match s with
  | [] => false
  | _ :: _ => true
  end.

(** [s[0]] and [s[-1]]; [None] stands for Python's [IndexError]. *)
Definition first_char (s : str) : option codepoint :=
  match s with
  | [] => None
  | c :: _ => Some c
  end.

Fixpoint last_char (s : str) : option codepoint :=
  match s with
  | [] => None
  | [c] => Some c
  | _ :: s' => last_char s'
  end.

(** [a != b] for two indexing results. *)
Definition char_neb (a b : option codepoint) : bool :=
  match a, b with
  | Some c, Some d => negb (N.eqb c d)
  | None, None => false
  | _, _ => true
  end.

(** The code points [str.strip()] removes: CPython's
    [_PyUnicode_IsWhitespace]. *)
Definition is_space (c : codepoint) : bool :=
  ((0x09 <=? c) && (c <=? 0x0D)) ||
  ((0x1C <=? c) && (c <=? 0x20)) ||
  (c =? 0x85) || (c =? 0xA0) || (c =? 0x1680) ||
  ((0x2000 <=? c) && (c <=? 0x200A)) ||
  (c =? 0x2028) || (c =? 0x2029) || (c =? 0x202F) ||
  (c =? 0x205F) || (c =? 0x3000).

Fixpoint lstrip (s : str) : str :=
  match s with
  | [] => []
  | c :: s' => if is_space c then lstrip s' else s
  end.

Definition rstrip (s : str) : str := rev (lstrip (rev s)).

(** [s.strip()]: drop the leading and the trailing whitespace. *)
Definition strip (s : str) : str := rstrip (lstrip s).

(** Source literals.  The files are UTF-8; a literal denotes the code points
    its bytes decode to. *)
Definition byte_of (a : ascii) : N := N_of_ascii a.

Definition cont (b : N) : N := N.land b 0x3F.

Fixpoint decode_utf8 (bs : list N) : str :=
  match bs with
  | [] => []
  | b0 :: r0 =>
      if b0 <? 0x80 then b0 :: decode_utf8 r0
      else if b0 <? 0xE0 then
        match r0 with
        | b1 :: r1 =>
            (N.shiftl (N.land b0 0x1F) 6 + cont b1) :: decode_utf8 r1
        | _ => []
        end
      else if b0 <? 0xF0 then
        match r0 with
        | b1 :: b2 :: r2 =>
            (N.shiftl (N.land b0 0x0F) 12 + N.shiftl (cont b1) 6 + cont b2)
              :: decode_utf8 r2
        | _ => []
        end
      else
        match r0 with
        | b1 :: b2 :: b3 :: r3 =>
            (N.shiftl (N.land b0 0x07) 18 + N.shiftl (cont b1) 12
             + N.shiftl (cont b2) 6 + cont b3) :: decode_utf8 r3
        | _ => []
        end
  end.

Definition lit (s : string) : str :=
  decode_utf8 (map byte_of (list_ascii_of_string s)).

End PyStr.

Import PyStr.

(** ** Outcome of one submission

    The source has no return value for a submission: it stores the text in
    [st.session_state.message], shows it through [message_placeholder]
    ([warning], [error] or [success]) and leaves the button's block.  An
    [Outcome] names the exit taken: [Rejected] for the two [warning] exits,
    [GameOver] for the two [error] exits, [Accepted] for the [success] one. *)

Inductive RejectReason := EmptyInput.
Inductive GameOverReason := DuplicateWord | ChainBroken.

Inductive Outcome :=
| Rejected (r : RejectReason)
| GameOver (r : GameOverReason) (word : str)
| Accepted (word : str).

Definition is_accepted (o : Outcome) : bool :=
  match o with
  | Accepted _ => true
  | _ => false
  end.

(** What one run of [main()] receives from the page: the value of the text
    field and the button that was clicked, if any. *)
Inductive Button := NewGame | Submit | Restart.

Record Run := { user_input : str; clicked : option Button }.

(** A step of the engine seen from outside: a reset or a submission. *)
Inductive Action :=
| Reset
| SubmitWord (raw_input : str).

(** [f"{s[-1]}"] inside a message. *)
Definition show_char (c : option codepoint) : str :=
  match c with
  | Some d => [d]
  | None => []
  end.

(** The chaining rule as the specification words it: the previous word is
    empty, or the word starts with the previous word's last character. *)
Definition chains (last_word new_word : str) : Prop :=
  last_word = [] \/
  exists c, first_char new_word = Some c /\ last_char last_word = Some c.

(** A history as the game keeps it: no word twice, no empty word. *)
Definition history_ok (h : list str) : Prop :=
  NoDup h /\ Forall (fun w => w <> []) h.

(** ** app.py: the one-player game *)

Module Solo.

Record Session := {
  word_history : list str;
  current_turn : Z;
  last_word : str;
  game_over : bool;
  message : str
}.

Definition set_word_history (s : Session) (h : list str) : Session :=
  {| word_history := h; current_turn := current_turn s;
     last_word := last_word s; game_over := game_over s;
     message := message s |}.

Definition set_current_turn (s : Session) (n : Z) : Session :=
  {| word_history := word_history s; current_turn := n;
     last_word := last_word s; game_over := game_over s;
     message := message s |}.

Definition set_last_word (s : Session) (w : str) : Session :=
  {| word_history := word_history s; current_turn := current_turn s;
     last_word := w; game_over := game_over s; message := message s |}.

Definition set_game_over (s : Session) (b : bool) : Session :=
  {| word_history := word_history s; current_turn := current_turn s;
     last_word := last_word s; game_over := b; message := message s |}.

Definition set_message (s : Session) (m : str) : Session :=
  {| word_history := word_history s; current_turn := current_turn s;
     last_word := last_word s; game_over := game_over s; message := m |}.

(** The texts stored in [st.session_state.message]. *)
Definition msg_start : str := lit "게임을 시작합니다! 첫 단어를 입력해주세요.".

Definition msg_enter_word : str := lit "단어를 입력해주세요!".

Definition msg_duplicate (new_word : str) : str :=
  lit "게임 오버! '" ++ new_word ++ lit "'는 이미 사용된 단어입니다.".

Definition msg_chain (new_word : str) (c : option codepoint) : str :=
  lit "게임 오버! '" ++ new_word ++ lit "'는 '" ++ show_char c
  ++ lit "'로 시작하지 않습니다.".

Definition msg_added (new_word : str) : str :=
  lit "'" ++ new_word ++ lit "'가 성공적으로 추가되었습니다.".

(** [initialize_game()]; [prev] is the session it overwrites, [None] when
    [st.session_state] holds no game yet. *)
Definition initialize_game (prev : option Session) : Session :=
  {| word_history := [];
     current_turn := 1;
     last_word := [];
     game_over := false;
     message := msg_start |}.

(** The block under [if st.button("제출"):].  After an accepted word the
    source also clears the text field's own key and asks for a rerun; neither
    touches the five fields of the game. *)
Definition submit (s : Session) (user_input : str) : Session * Outcome :=
  if negb (truthy user_input) then
    (set_message s msg_enter_word, Rejected EmptyInput)
  else
    let new_word := strip user_input in
    if negb (truthy new_word) then
      (set_message s msg_enter_word, Rejected EmptyInput)
    else if contains new_word (word_history s) then
      let s := set_game_over s true in
      let s := set_message s (msg_duplicate new_word) in
      (s, GameOver DuplicateWord new_word)
    else if truthy (last_word s)
            && char_neb (first_char new_word) (last_char (last_word s)) then
      let s := set_game_over s true in
      let s := set_message s
        (msg_chain new_word (last_char (last_word s))) in
      (s, GameOver ChainBroken new_word)
    else
      let s := set_word_history s (word_history s ++ [new_word]) in
      let s := set_last_word s new_word in
      let s := set_current_turn s (current_turn s + 1) in
      let s := set_message s (msg_added new_word) in
      (s, Accepted new_word).

(** One run of [main()]: the session it leaves behind. *)
Definition main (ss : option Session) (r : Run) : Session :=
  let s := match ss with
           | None => initialize_game None
           | Some s => s
           end in
  if game_over s then
    match clicked r with
    | Some NewGame => initialize_game (Some s)
    | _ => s
    end
  else
    match clicked r with
    | Some Submit => fst (submit s (user_input r))
    | Some Restart => initialize_game (Some s)
    | _ => s
    end.

Definition step (s : Session) (a : Action) : Session :=
  match a with
  | Reset => initialize_game (Some s)
  | SubmitWord u => fst (submit s u)
  end.

(** The state after a reset followed by the actions [acts]. *)
Definition play (prev : option Session) (acts : list Action) : Session :=
  fold_left step acts (initialize_game prev).

(** The state after the runs [rs] of [main()], from an empty session store. *)
Definition runs (rs : list Run) : option Session :=
  fold_left (fun ss r => Some (main ss r)) rs None.

End Solo.

(** ** main.py: the two-player game *)

Module TwoPlayer.

Record Session := {
  word_history : list str;
  current_turn : Z;
  last_word : str;
  game_over : bool;
  message : str;
  current_player : str;
  input_key_counter : Z
}.

Definition set_word_history (s : Session) (h : list str) : Session :=
  {| word_history := h; current_turn := current_turn s;
     last_word := last_word s; game_over := game_over s;
     message := message s; current_player := current_player s;
     input_key_counter := input_key_counter s |}.

Definition set_current_turn (s : Session) (n : Z) : Session :=
  {| word_history := word_history s; current_turn := n;
     last_word := last_word s; game_over := game_over s;
     message := message s; current_player := current_player s;
     input_key_counter := input_key_counter s |}.

Definition set_last_word (s : Session) (w : str) : Session :=
  {| word_history := word_history s; current_turn := current_turn s;
     last_word := w; game_over := game_over s;
     message := message s; current_player := current_player s;
     input_key_counter := input_key_counter s |}.

Definition set_game_over (s : Session) (b : bool) : Session :=
  {| word_history := word_history s; current_turn := current_turn s;
     last_word := last_word s; game_over := b;
     message := message s; current_player := current_player s;
     input_key_counter := input_key_counter s |}.

Definition set_message (s : Session) (m : str) : Session :=
  {| word_history := word_history s; current_turn := current_turn s;
     last_word := last_word s; game_over := game_over s;
     message := m; current_player := current_player s;
     input_key_counter := input_key_counter s |}.

Definition set_current_player (s : Session) (p : str) : Session :=
  {| word_history := word_history s; current_turn := current_turn s;
     last_word := last_word s; game_over := game_over s;
     message := message s; current_player := p;
     input_key_counter := input_key_counter s |}.

Definition set_input_key_counter (s : Session) (k : Z) : Session :=
  {| word_history := word_history s; current_turn := current_turn s;
     last_word := last_word s; game_over := game_over s;
     message := message s; current_player := current_player s;
     input_key_counter := k |}.

Definition player_A : str := lit "A".
Definition player_B : str := lit "B".

(** The texts stored in [st.session_state.message]. *)
Definition msg_start : str :=
  lit "게임을 시작합니다! 플레이어 A가 첫 단어를 입력해주세요.".

Definition msg_enter_word : str := lit "단어를 입력해주세요!".

Definition msg_duplicate (player new_word : str) : str :=
  lit "게임 오버! 플레이어 " ++ player ++ lit "님, '" ++ new_word
  ++ lit "'는 이미 사용된 단어입니다.".

Definition msg_chain (player new_word : str) (c : option codepoint) : str :=
  lit "게임 오버! 플레이어 " ++ player ++ lit "님, '" ++ new_word
  ++ lit "'는 '" ++ show_char c ++ lit "'로 시작하지 않습니다.".

Definition msg_added (player new_word : str) : str :=
  lit "플레이어 " ++ player ++ lit "님이 '" ++ new_word
  ++ lit "'를 성공적으로 추가했습니다.".

(** [initialize_game()]; [prev] is the session it overwrites, [None] when
    [st.session_state] holds no game yet, in which case
    [st.session_state.get('input_key_counter', 0)] is [0]. *)
Definition initialize_game (prev : option Session) : Session :=
  {| word_history := [];
     current_turn := 1;
     last_word := [];
     game_over := false;
     message := msg_start;
     current_player := player_A;
     input_key_counter :=
       match prev with
       | Some p => input_key_counter p
       | None => 0
       end + 1 |}.

(** The block under [if st.button("제출"):]. *)
Definition submit (s : Session) (user_input : str) : Session * Outcome :=
  if negb (truthy user_input) then
    (set_message s msg_enter_word, Rejected EmptyInput)
  else
    let new_word := strip user_input in
    if negb (truthy new_word) then
      (set_message s msg_enter_word, Rejected EmptyInput)
    else if contains new_word (word_history s) then
      let s := set_game_over s true in
      let s := set_message s (msg_duplicate (current_player s) new_word) in
      (s, GameOver DuplicateWord new_word)
    else if truthy (last_word s)
            && char_neb (first_char new_word) (last_char (last_word s)) then
      let s := set_game_over s true in
      let s := set_message s
        (msg_chain (current_player s) new_word
                   (last_char (last_word s))) in
      (s, GameOver ChainBroken new_word)
    else
      let s := set_word_history s (word_history s ++ [new_word]) in
      let s := set_last_word s new_word in
      let s := set_message s (msg_added (current_player s) new_word) in
      let s :=
        if str_eqb (current_player s) player_A then
          set_current_player s player_B
        else
          let s := set_current_player s player_A in
          set_current_turn s (current_turn s + 1) in
      let s := set_input_key_counter s (input_key_counter s + 1) in
      (s, Accepted new_word).

(** One run of [main()]: the session it leaves behind. *)
Definition main (ss : option Session) (r : Run) : Session :=
  let s := match ss with
           | None => initialize_game None
           | Some s => s
           end in
  if game_over s then
    match clicked r with
    | Some NewGame => initialize_game (Some s)
    | _ => s
    end
  else
    match clicked r with
    | Some Submit => fst (submit s (user_input r))
    | Some Restart => initialize_game (Some s)
    | _ => s
    end.

Definition step (s : Session) (a : Action) : Session :=
  match a with
  | Reset => initialize_game (Some s)
  | SubmitWord u => fst (submit s u)
  end.

(** The state after a reset followed by the actions [acts]. *)
Definition play (prev : option Session) (acts : list Action) : Session :=
  fold_left step acts (initialize_game prev).

(** The state after the runs [rs] of [main()], from an empty session store. *)
Definition runs (rs : list Run) : option Session :=
  fold_left (fun ss r => Some (main ss r)) rs None.

(** The session an accepted word leaves behind: the message names the
    player who submitted, then the player is switched, and the turn counter
    moves when the switch gives the turn back to A. *)
Definition accepted_session (s : Session) (w : str) : Session :=
  {| word_history := word_history s ++ [w];
     current_turn := if str_eqb (current_player s) player_A
                     then current_turn s else current_turn s + 1;
     last_word := w;
     game_over := game_over s;
     message := msg_added (current_player s) w;
     current_player := if str_eqb (current_player s) player_A
                       then player_B else player_A;
     input_key_counter := input_key_counter s + 1 |}.

(** Player and turn counter as the number of accepted words fixes them. *)
Definition turn_ok (s : Session) : Prop :=
  let n := Z.of_nat (List.length (word_history s)) in
  (current_player s = player_A /\ n = 2 * (current_turn s - 1))%Z \/
  (current_player s = player_B /\ n = 2 * (current_turn s - 1) + 1)%Z.

End TwoPlayer.

(** ** The page around the engine *)

Definition is_game_over (o : Outcome) : bool :=
  match o with
  | GameOver _ _ => true
  | _ => false
  end.

(** [new_word[0] == last_word[-1]] for two words that follow each other. *)
Definition linked (prev_word next_word : str) : bool :=
  negb (char_neb (first_char next_word) (last_char prev_word)).

(** Every word of the list starts with the last code point of the word
    before it. *)
Fixpoint is_chain (h : list str) : bool :=
  match h with
  | [] => true
  | w :: t =>
      match t with
      | [] => true
      | w' :: _ => linked w w' && is_chain t
      end
  end.

(** The state the two games share: history, last word and the over flag. *)
Definition same_game (s : Solo.Session) (t : TwoPlayer.Session) : Prop :=
  Solo.word_history s = TwoPlayer.word_history t /\
  Solo.last_word s = TwoPlayer.last_word t /\
  Solo.game_over s = TwoPlayer.game_over t.

(** [str(n)] for a Python [int]. *)
Fixpoint digits (d : Decimal.uint) : str :=
  match d with
  | Decimal.Nil => []
  | Decimal.D0 d => 48%N :: digits d
  | Decimal.D1 d => 49%N :: digits d
  | Decimal.D2 d => 50%N :: digits d
  | Decimal.D3 d => 51%N :: digits d
  | Decimal.D4 d => 52%N :: digits d
  | Decimal.D5 d => 53%N :: digits d
  | Decimal.D6 d => 54%N :: digits d
  | Decimal.D7 d => 55%N :: digits d
  | Decimal.D8 d => 56%N :: digits d
  | Decimal.D9 d => 57%N :: digits d
  end.

Definition str_of_int (z : Z) : str :=
  match z with
  | Z0 => [48%N]
  | Zpos p => digits (Pos.to_uint p)
  | Zneg p => 45%N :: digits (Pos.to_uint p)
  end.

(** [enumerate(l)], counting from [i]. *)
Fixpoint enumerate_from (A : Type) (i : Z) (l : list A) : list (Z * A) :=
  match l with
  | [] => []
  | x :: l' => (i, x) :: enumerate_from (i + 1) l'
  end.

Definition msg_no_words : str := lit "아직 사용된 단어가 없습니다.".

Definition dot_space : str := lit ". ".

(** [f"{n}. {word}"]. *)
Definition history_line (n : Z) (word : str) : str :=
  str_of_int n ++ dot_space ++ word.

(** The word list at the foot of the page, the same in both files: what the
    calls of [st.write] under the list's heading receive, in order. *)
Definition history_lines (word_history : list str) : list str :=
  match word_history with
  | [] => [msg_no_words]
  | _ :: _ =>
      map (fun iw => history_line
                       (Z.of_nat (List.length word_history) - fst iw)
                       (snd iw))
          (enumerate_from 0 (rev word_history))
  end.

(** What an outcome tells about the input: the conditions under which each
    exit of the block is taken. *)
Definition outcome_sound (h : list str) (l u : str) (o : Outcome) : Prop :=
  match o with
  | Rejected EmptyInput => strip u = []
  | GameOver DuplicateWord w => w = strip u /\ w <> [] /\ In w h
  | GameOver ChainBroken w =>
      w = strip u /\ ~ In w h /\
      exists c d, first_char w = Some c /\ last_char l = Some d /\ c <> d
  | Accepted w => w = strip u /\ w <> [] /\ ~ In w h /\ chains l w
  end.

(** What the game keeps true of its history [h] and last word [l]: the last
    word is the last entry, the entries chain, and each is stripped. *)
Definition game_inv (h : list str) (l : str) : Prop :=
  l = last h [] /\ is_chain h = true /\ Forall (fun w => strip w = w) h.

(** One step of either game on history and last word: nothing, or a new
    word appended that becomes the last word. *)
Definition history_step (h : list str) (l : str) (h' : list str) (l' u : str)
  : Prop :=
  (h' = h /\ l' = l) \/
  (h' = h ++ [strip u] /\ l' = strip u /\ strip u <> [] /\
   ~ In (strip u) h /\ chains l (strip u)).

(** The runs that do not click the new-game button. *)
Definition no_new_game (rs : list Run) : Prop :=
  Forall (fun r => clicked r <> Some NewGame) rs.

(** ** Facts about strings *)

Section StrFacts.

Lemma str_eqb_eq (s t : str) : str_eqb s t = true <-> s = t.
Proof.
  revert t; induction s as [|c s IH]; intros [|d t]; simpl;
    try (split; (reflexivity || discriminate)).
  rewrite andb_true_iff, N.eqb_eq, IH.
  split; [intros [-> ->]; reflexivity | intros [= -> ->]; auto].
Qed.

Lemma str_eqb_refl (s : str) : str_eqb s s = true.
Proof. apply str_eqb_eq; reflexivity. Qed.

Lemma contains_In (w : str) (l : list str) : contains w l = true <-> In w l.
Proof.
  unfold contains; rewrite existsb_exists; split.
  - intros (x & Hx & E); apply str_eqb_eq in E; subst; assumption.
  - intros H; exists w; split; [assumption | apply str_eqb_refl].
Qed.

Lemma contains_not_In (w : str) (l : list str) :
  contains w l = false <-> ~ In w l.
Proof.
  rewrite <- contains_In; destruct (contains w l); split;
    (congruence || tauto || auto).
Qed.

Lemma truthy_true (s : str) : truthy s = true <-> s <> [].
Proof. destruct s; simpl; split; (congruence || discriminate || auto). Qed.

Lemma lstrip_spaces (s : str) :
  Forall (fun c => is_space c = true) s -> lstrip s = [].
Proof.
  induction 1 as [|c s Hc _ IH]; simpl; [reflexivity|].
  rewrite Hc; exact IH.
Qed.

Lemma strip_spaces (s : str) :
  Forall (fun c => is_space c = true) s -> strip s = [].
Proof.
  intros H; unfold strip; rewrite (lstrip_spaces H); reflexivity.
Qed.

Lemma strip_nonempty (s : str) : strip s <> [] -> s <> [].
Proof. intros H E; subst s; apply H; reflexivity. Qed.

Lemma first_char_some (s : str) : s <> [] -> exists c, first_char s = Some c.
Proof. destruct s as [|c s]; [congruence | exists c; reflexivity]. Qed.

Lemma last_char_some (s : str) : s <> [] -> exists c, last_char s = Some c.
Proof.
  induction s as [|c s IH]; [congruence|]; intros _.
  destruct s as [|d s]; [exists c; reflexivity|].
  destruct IH as [e He]; [discriminate|]; exists e; exact He.
Qed.

Lemma char_neb_some (c d : codepoint) :
  char_neb (Some c) (Some d) = true <-> c <> d.
Proof.
  simpl; rewrite negb_true_iff, N.eqb_neq; tauto.
Qed.

(** Where the source indexes [new_word[0]] and [last_word[-1]] both strings
    have passed their truthiness test, so neither indexing can fail. *)
Lemma chain_test_defined (l w : str) :
  truthy w = true -> truthy l = true ->
  exists c d, first_char w = Some c /\ last_char l = Some d.
Proof.
  intros Hw Hl.
  destruct (first_char_some (proj1 (truthy_true w) Hw)) as [c Hc].
  destruct (last_char_some (proj1 (truthy_true l) Hl)) as [d Hd].
  exists c, d; split; assumption.
Qed.

End StrFacts.

(** Splits a goal about [submit s u] along the exits of the source block. *)
Ltac submit_exits s u :=
  destruct (truthy u) eqn:Hinput; simpl;
  [ destruct (truthy (strip u)) eqn:Hword; simpl;
    [ match goal with
      | |- context [contains (strip u) ?h] =>
          destruct (contains (strip u) h) eqn:Hdup; simpl;
          [ | match goal with
              | |- context [truthy ?l && char_neb ?a ?b] =>
                  destruct (truthy l && char_neb a b) eqn:Hchain; simpl
              end ]
      end
    | ]
  | ].

Lemma chains_test (l w : str) :
  chains l w -> truthy l && char_neb (first_char w) (last_char l) = false.
Proof.
  intros [-> | (c & -> & ->)]; [reflexivity|].
  simpl; rewrite N.eqb_refl; apply andb_false_r.
Qed.

Lemma breaks_test (l w : str) (c d : codepoint) :
  first_char w = Some c -> last_char l = Some d -> c <> d ->
  truthy l && char_neb (first_char w) (last_char l) = true.
Proof.
  intros Hc Hd Hne; rewrite Hc, Hd.
  apply andb_true_iff; split; [|apply char_neb_some; exact Hne].
  destruct l; [discriminate Hd | reflexivity].
Qed.

(** ** Facts about the one-player game *)

Section SoloFacts.

Import Solo.

Lemma solo_submit_rejected (s : Session) (u : str) :
  strip u = [] ->
  submit s u = (set_message s msg_enter_word, Rejected EmptyInput).
Proof.
  intros H; unfold submit; destruct (truthy u); simpl; [|reflexivity].
  rewrite H; reflexivity.
Qed.

Lemma solo_submit_duplicate (s : Session) (u : str) :
  strip u <> [] -> In (strip u) (word_history s) ->
  submit s u =
    (set_message (set_game_over s true) (msg_duplicate (strip u)),
     GameOver DuplicateWord (strip u)).
Proof.
  intros Hne Hin; unfold submit.
  apply truthy_true in Hne; rewrite (proj2 (truthy_true u)), Hne; simpl.
  - apply contains_In in Hin; rewrite Hin; reflexivity.
  - apply strip_nonempty; apply truthy_true; exact Hne.
Qed.

Lemma solo_submit_chain (s : Session) (u : str) (c d : codepoint) :
  ~ In (strip u) (word_history s) ->
  first_char (strip u) = Some c -> last_char (last_word s) = Some d ->
  c <> d ->
  submit s u =
    (set_message (set_game_over s true) (msg_chain (strip u) (Some d)),
     GameOver ChainBroken (strip u)).
Proof.
  intros Hnin Hc Hd Hcd; unfold submit.
  assert (Hne : strip u <> []) by (intros E; rewrite E in Hc; discriminate).
  rewrite (proj2 (truthy_true u)) by (apply strip_nonempty; exact Hne).
  rewrite (proj2 (truthy_true _) Hne); simpl.
  apply contains_not_In in Hnin; rewrite Hnin.
  rewrite (breaks_test _ _ Hc Hd Hcd); simpl; rewrite Hd; reflexivity.
Qed.

Lemma solo_submit_accepted (s : Session) (u : str) :
  strip u <> [] -> ~ In (strip u) (word_history s) ->
  chains (last_word s) (strip u) ->
  submit s u =
    ({| word_history := word_history s ++ [strip u];
        current_turn := current_turn s + 1;
        last_word := strip u;
        game_over := game_over s;
        message := msg_added (strip u) |},
     Accepted (strip u)).
Proof.
  intros Hne Hnin Hch; unfold submit.
  rewrite (proj2 (truthy_true u)) by (apply strip_nonempty; exact Hne).
  rewrite (proj2 (truthy_true _) Hne); simpl.
  apply contains_not_In in Hnin; rewrite Hnin.
  rewrite (chains_test Hch); reflexivity.
Qed.

(** What a submission can do to the history: nothing, or append a new,
    non-empty word. *)
Lemma solo_submit_history (s : Session) (u : str) :
  word_history (fst (submit s u)) = word_history s \/
  (word_history (fst (submit s u)) = word_history s ++ [strip u] /\
   strip u <> [] /\ ~ In (strip u) (word_history s)).
Proof.
  unfold submit; submit_exits s u; auto.
  right; split; [reflexivity|]; split.
  - apply truthy_true; exact Hword.
  - apply contains_not_In; exact Hdup.
Qed.

End SoloFacts.

(** Once a run of [main()] has happened the session store holds a game. *)
Lemma fold_runs_some (S R : Type) (f : option S -> R -> S)
      (rs : list R) (o : option S) :
  o <> None -> fold_left (fun ss r => Some (f ss r)) rs o <> None.
Proof.
  revert o; induction rs as [|r rs IH]; intros o H; simpl; [exact H|].
  apply IH; discriminate.
Qed.

Lemma history_ok_nil : history_ok [].
Proof. split; constructor. Qed.

Lemma history_ok_step (h h' : list str) (w : str) :
  h' = h \/ (h' = h ++ [w] /\ w <> [] /\ ~ In w h) ->
  history_ok h -> history_ok h'.
Proof.
  intros [-> | (-> & Hne & Hnin)] [Hnd Hall]; [split; assumption|].
  split.
  - apply NoDup_app; [exact Hnd | repeat constructor; intros [] |].
    intros a Ha [<- | []]; exact (Hnin Ha).
  - apply Forall_app; split; [exact Hall|].
    constructor; [exact Hne | constructor].
Qed.

Section SoloInvariant.

Import Solo.

Lemma solo_step_history_ok (s : Session) (a : Action) :
  history_ok (word_history s) -> history_ok (word_history (step s a)).
Proof.
  destruct a as [|u]; simpl; [intros _; apply history_ok_nil|].
  apply history_ok_step with (w := strip u); apply solo_submit_history.
Qed.

Lemma solo_fold_history_ok (acts : list Action) (s : Session) :
  history_ok (word_history s) ->
  history_ok (word_history (fold_left step acts s)).
Proof.
  revert s; induction acts as [|a acts IH]; intros s H; simpl; [exact H|].
  apply IH, solo_step_history_ok, H.
Qed.

Lemma solo_play_history_ok (prev : option Session) (acts : list Action) :
  history_ok (word_history (play prev acts)).
Proof. apply solo_fold_history_ok, history_ok_nil. Qed.

Lemma solo_main_history_ok (ss : option Session) (r : Run) :
  match ss with Some s => history_ok (word_history s) | None => True end ->
  history_ok (word_history (main ss r)).
Proof.
  intros H; unfold main.
  set (s := match ss with None => initialize_game None | Some s => s end).
  assert (Hs : history_ok (word_history s))
    by (destruct ss; [exact H | apply history_ok_nil]).
  destruct (game_over s), (clicked r) as [[| |]|];
    try exact Hs; try apply history_ok_nil.
  apply (@solo_step_history_ok s (SubmitWord (user_input r)) Hs).
Qed.

Lemma solo_fold_main_history_ok (rs : list Run) (ss : option Session) :
  match ss with Some s => history_ok (word_history s) | None => True end ->
  match fold_left (fun ss r => Some (main ss r)) rs ss with
  | Some s => history_ok (word_history s)
  | None => True
  end.
Proof.
  revert ss; induction rs as [|r rs IH]; intros ss H; simpl; [exact H|].
  apply IH, solo_main_history_ok, H.
Qed.

End SoloInvariant.

(** ** Facts about the two-player game *)

Section TwoPlayerFacts.

Import TwoPlayer.

Lemma two_submit_rejected (s : Session) (u : str) :
  strip u = [] ->
  submit s u = (set_message s msg_enter_word, Rejected EmptyInput).
Proof.
  intros H; unfold submit; destruct (truthy u); simpl; [|reflexivity].
  rewrite H; reflexivity.
Qed.

Lemma two_submit_duplicate (s : Session) (u : str) :
  strip u <> [] -> In (strip u) (word_history s) ->
  submit s u =
    (set_message (set_game_over s true)
                 (msg_duplicate (current_player s) (strip u)),
     GameOver DuplicateWord (strip u)).
Proof.
  intros Hne Hin; unfold submit.
  rewrite (proj2 (truthy_true u)) by (apply strip_nonempty; exact Hne).
  rewrite (proj2 (truthy_true _) Hne); simpl.
  apply contains_In in Hin; rewrite Hin; reflexivity.
Qed.

Lemma two_submit_chain (s : Session) (u : str) (c d : codepoint) :
  ~ In (strip u) (word_history s) ->
  first_char (strip u) = Some c -> last_char (last_word s) = Some d ->
  c <> d ->
  submit s u =
    (set_message (set_game_over s true)
                 (msg_chain (current_player s) (strip u) (Some d)),
     GameOver ChainBroken (strip u)).
Proof.
  intros Hnin Hc Hd Hcd; unfold submit.
  assert (Hne : strip u <> []) by (intros E; rewrite E in Hc; discriminate).
  rewrite (proj2 (truthy_true u)) by (apply strip_nonempty; exact Hne).
  rewrite (proj2 (truthy_true _) Hne); simpl.
  apply contains_not_In in Hnin; rewrite Hnin.
  rewrite (breaks_test _ _ Hc Hd Hcd); simpl; rewrite Hd; reflexivity.
Qed.

Lemma two_submit_accepted (s : Session) (u : str) :
  strip u <> [] -> ~ In (strip u) (word_history s) ->
  chains (last_word s) (strip u) ->
  submit s u = (accepted_session s (strip u), Accepted (strip u)).
Proof.
  intros Hne Hnin Hch; unfold submit.
  rewrite (proj2 (truthy_true u)) by (apply strip_nonempty; exact Hne).
  rewrite (proj2 (truthy_true _) Hne); simpl.
  apply contains_not_In in Hnin; rewrite Hnin.
  rewrite (chains_test Hch); simpl.
  unfold accepted_session; destruct (str_eqb (current_player s) player_A);
    reflexivity.
Qed.

(** Every submission either leaves history, turn counter, player and last
    word alone, or is accepted and appends a new, non-empty word. *)
Lemma two_submit_cases (s : Session) (u : str) :
  (is_accepted (snd (submit s u)) = false /\
   word_history (fst (submit s u)) = word_history s /\
   current_turn (fst (submit s u)) = current_turn s /\
   current_player (fst (submit s u)) = current_player s /\
   last_word (fst (submit s u)) = last_word s) \/
  (submit s u = (accepted_session s (strip u), Accepted (strip u)) /\
   strip u <> [] /\ ~ In (strip u) (word_history s)).
Proof.
  unfold submit; submit_exits s u; auto 6.
  right; split; [|split].
  - unfold accepted_session; destruct (str_eqb (current_player s) player_A);
      reflexivity.
  - apply truthy_true; exact Hword.
  - apply contains_not_In; exact Hdup.
Qed.

Lemma two_submit_history (s : Session) (u : str) :
  word_history (fst (submit s u)) = word_history s \/
  (word_history (fst (submit s u)) = word_history s ++ [strip u] /\
   strip u <> [] /\ ~ In (strip u) (word_history s)).
Proof.
  destruct (two_submit_cases s u) as [(_ & H & _) | (E & Hne & Hnin)];
    [left; exact H | right; rewrite E; auto].
Qed.

Lemma two_turn_ok_init (prev : option Session) :
  turn_ok (initialize_game prev).
Proof. left; split; reflexivity. Qed.

Lemma two_turn_ok_submit (s : Session) (u : str) :
  turn_ok s -> turn_ok (fst (submit s u)).
Proof.
  intros Hok.
  destruct (two_submit_cases s u) as [(_ & Hh & Ht & Hp & _) | (E & _)].
  - unfold turn_ok in *; rewrite Hh, Ht, Hp; exact Hok.
  - rewrite E; unfold turn_ok, accepted_session in *;
      cbn [fst word_history current_turn current_player].
    rewrite length_app, Nat2Z.inj_add; cbn [List.length].
    destruct Hok as [[-> Hn] | [-> Hn]].
    + change (str_eqb player_A player_A) with true; cbv iota.
      right; split; [reflexivity | lia].
    + change (str_eqb player_B player_A) with false; cbv iota.
      left; split; [reflexivity | lia].
Qed.

Lemma two_step_ok (s : Session) (a : Action) :
  history_ok (word_history s) /\ turn_ok s ->
  history_ok (word_history (step s a)) /\ turn_ok (step s a).
Proof.
  intros [Hh Ht]; destruct a as [|u]; simpl.
  - split; [apply history_ok_nil | apply two_turn_ok_init].
  - split; [|apply two_turn_ok_submit, Ht].
    apply history_ok_step with (w := strip u) (h := word_history s);
      [apply two_submit_history | exact Hh].
Qed.

Lemma two_fold_ok (acts : list Action) (s : Session) :
  history_ok (word_history s) /\ turn_ok s ->
  history_ok (word_history (fold_left step acts s)) /\
  turn_ok (fold_left step acts s).
Proof.
  revert s; induction acts as [|a acts IH]; intros s H; simpl; [exact H|].
  apply IH, two_step_ok, H.
Qed.

Lemma two_play_ok (prev : option Session) (acts : list Action) :
  history_ok (word_history (play prev acts)) /\ turn_ok (play prev acts).
Proof.
  apply two_fold_ok; split; [apply history_ok_nil | apply two_turn_ok_init].
Qed.

Lemma two_main_ok (ss : option Session) (r : Run) :
  match ss with
  | Some s => history_ok (word_history s) /\ turn_ok s
  | None => True
  end ->
  history_ok (word_history (main ss r)) /\ turn_ok (main ss r).
Proof.
  intros H; unfold main.
  set (s := match ss with None => initialize_game None | Some s => s end).
  assert (Hinit : forall p, history_ok (word_history (initialize_game p)) /\
                            turn_ok (initialize_game p))
    by (intros p; split; [apply history_ok_nil | apply two_turn_ok_init]).
  assert (Hs : history_ok (word_history s) /\ turn_ok s)
    by (destruct ss; [exact H | apply Hinit]).
  destruct (game_over s), (clicked r) as [[| |]|];
    try exact Hs; try apply Hinit.
  apply (@two_step_ok s (SubmitWord (user_input r)) Hs).
Qed.

Lemma two_fold_main_ok (rs : list Run) (ss : option Session) :
  match ss with
  | Some s => history_ok (word_history s) /\ turn_ok s
  | None => True
  end ->
  match fold_left (fun ss r => Some (main ss r)) rs ss with
  | Some s => history_ok (word_history s) /\ turn_ok s
  | None => True
  end.
Proof.
  revert ss; induction rs as [|r rs IH]; intros ss H; simpl; [exact H|].
  apply IH, two_main_ok, H.
Qed.

(** Player and counter read off the number of accepted words. *)
Lemma two_turn_ok_reading (s : Session) :
  turn_ok s ->
  (current_player s = player_A <->
   Nat.Even (List.length (word_history s))) /\
  current_turn s
  = (Z.of_nat (List.length (word_history s)) / 2 + 1)%Z.
Proof.
  unfold turn_ok.
  set (n := List.length (word_history s)).
  set (t := current_turn s).
  intros [[Hp Hn] | [Hp Hn]]; rewrite Hp.
  - split.
    + split; [intros _ | reflexivity].
      exists (Z.to_nat (t - 1)); lia.
    + rewrite Hn, Z.mul_comm, Z.div_mul by lia; lia.
  - split.
    + split; [intros E; discriminate E | intros [m Hm]; lia].
    + rewrite Hn, Z.mul_comm, Z.div_add_l by lia.
      change (1 / 2)%Z with 0%Z; lia.
Qed.

End TwoPlayerFacts.

(** ** The engine's properties *)

(** C1.  A submission whose stripped word is not empty, is not in the
    history and satisfies the chaining rule is accepted, in both games: the
    outcome is [Accepted] with the stripped word, and the history is the old
    history followed by that one word. *)
Theorem submit_accepts_and_appends (u : str) :
  strip u <> [] ->
  (forall s : Solo.Session,
      ~ In (strip u) (Solo.word_history s) ->
      chains (Solo.last_word s) (strip u) ->
      snd (Solo.submit s u) = Accepted (strip u) /\
      Solo.word_history (fst (Solo.submit s u))
      = Solo.word_history s ++ [strip u]) /\
  (forall s : TwoPlayer.Session,
      ~ In (strip u) (TwoPlayer.word_history s) ->
      chains (TwoPlayer.last_word s) (strip u) ->
      snd (TwoPlayer.submit s u) = Accepted (strip u) /\
      TwoPlayer.word_history (fst (TwoPlayer.submit s u))
      = TwoPlayer.word_history s ++ [strip u]).
Proof.
  intros Hne; split; intros s Hnin Hch.
  - rewrite (solo_submit_accepted s u Hne Hnin Hch); split; reflexivity.
  - rewrite (two_submit_accepted s u Hne Hnin Hch); split; reflexivity.
Qed.

Lemma submit_accepts_and_appends_witness :
  let u := lit " elephant " in
  let s1 := Solo.play None [SubmitWord (lit "apple")] in
  let s2 := TwoPlayer.play None [SubmitWord (lit "apple")] in
  strip u <> [] /\
  (snd (Solo.submit s1 u) = Accepted (lit "elephant") /\
   Solo.word_history (fst (Solo.submit s1 u))
   = [lit "apple"; lit "elephant"]) /\
  (snd (TwoPlayer.submit s2 u) = Accepted (lit "elephant") /\
   TwoPlayer.word_history (fst (TwoPlayer.submit s2 u))
   = [lit "apple"; lit "elephant"]).
Proof.
  intros u s1 s2.
  assert (Hne : strip u <> []) by (vm_compute; discriminate).
  split; [exact Hne|].
  destruct (submit_accepts_and_appends u Hne) as [HS HT].
  split.
  - apply (HS s1).
    + vm_compute; intros [H | []]; discriminate H.
    + right; exists 101%N; split; reflexivity.
  - apply (HT s2).
    + vm_compute; intros [H | []]; discriminate H.
    + right; exists 101%N; split; reflexivity.
Defined.

(** C2.  In a state reached by play that is not over, submitting a word that
    is already in the history (same code points) ends the game as a
    duplicate, whatever its first character: the outcome is
    [GameOver DuplicateWord] with the word, [game_over] becomes true and the
    history is left as it was. *)
Theorem duplicate_ends_game (u : str) :
  (forall prev acts,
      let s := Solo.play prev acts in
      Solo.game_over s = false ->
      In (strip u) (Solo.word_history s) ->
      snd (Solo.submit s u) = GameOver DuplicateWord (strip u) /\
      Solo.game_over (fst (Solo.submit s u)) = true /\
      Solo.word_history (fst (Solo.submit s u)) = Solo.word_history s) /\
  (forall prev acts,
      let s := TwoPlayer.play prev acts in
      TwoPlayer.game_over s = false ->
      In (strip u) (TwoPlayer.word_history s) ->
      snd (TwoPlayer.submit s u) = GameOver DuplicateWord (strip u) /\
      TwoPlayer.game_over (fst (TwoPlayer.submit s u)) = true /\
      TwoPlayer.word_history (fst (TwoPlayer.submit s u))
      = TwoPlayer.word_history s).
Proof.
  split; intros prev acts s _ Hin.
  - assert (Hne : strip u <> []).
    { destruct (solo_play_history_ok prev acts) as [_ Hall].
      rewrite Forall_forall in Hall; exact (Hall _ Hin). }
    rewrite (solo_submit_duplicate s u Hne Hin); repeat split.
  - assert (Hne : strip u <> []).
    { destruct (two_play_ok prev acts) as [[_ Hall] _].
      rewrite Forall_forall in Hall; exact (Hall _ Hin). }
    rewrite (two_submit_duplicate s u Hne Hin); repeat split.
Qed.

(** The witness repeats "apple" after "apple", "elephant": a duplicate that
    also breaks the chain ('a' after 't'). *)
Lemma duplicate_ends_game_witness :
  let u := lit "apple " in
  let acts := [SubmitWord (lit "apple"); SubmitWord (lit "elephant")] in
  (snd (Solo.submit (Solo.play None acts) u)
   = GameOver DuplicateWord (lit "apple") /\
   Solo.game_over (fst (Solo.submit (Solo.play None acts) u)) = true /\
   Solo.word_history (fst (Solo.submit (Solo.play None acts) u))
   = [lit "apple"; lit "elephant"]) /\
  (snd (TwoPlayer.submit (TwoPlayer.play None acts) u)
   = GameOver DuplicateWord (lit "apple") /\
   TwoPlayer.game_over (fst (TwoPlayer.submit (TwoPlayer.play None acts) u))
   = true /\
   TwoPlayer.word_history (fst (TwoPlayer.submit (TwoPlayer.play None acts) u))
   = [lit "apple"; lit "elephant"]).
Proof.
  intros u acts.
  destruct (duplicate_ends_game u) as [HS HT].
  split.
  - apply (HS None acts); [reflexivity | vm_compute; left; reflexivity].
  - apply (HT None acts); [reflexivity | vm_compute; left; reflexivity].
Defined.

(** C3.  A submission whose stripped word is not in the history and starts
    with a code point other than the last code point of the previous word
    ends the game as a broken chain: the outcome is [GameOver ChainBroken]
    with the word and [game_over] becomes true. *)
Theorem chain_break_ends_game (u : str) (c d : codepoint) :
  first_char (strip u) = Some c ->
  c <> d ->
  (forall s : Solo.Session,
      ~ In (strip u) (Solo.word_history s) ->
      last_char (Solo.last_word s) = Some d ->
      snd (Solo.submit s u) = GameOver ChainBroken (strip u) /\
      Solo.game_over (fst (Solo.submit s u)) = true) /\
  (forall s : TwoPlayer.Session,
      ~ In (strip u) (TwoPlayer.word_history s) ->
      last_char (TwoPlayer.last_word s) = Some d ->
      snd (TwoPlayer.submit s u) = GameOver ChainBroken (strip u) /\
      TwoPlayer.game_over (fst (TwoPlayer.submit s u)) = true).
Proof.
  intros Hc Hcd; split; intros s Hnin Hd.
  - rewrite (solo_submit_chain s u Hnin Hc Hd Hcd); split; reflexivity.
  - rewrite (two_submit_chain s u Hnin Hc Hd Hcd); split; reflexivity.
Qed.

Lemma chain_break_ends_game_witness :
  let u := lit "banana" in
  let s1 := Solo.play None [SubmitWord (lit "apple")] in
  let s2 := TwoPlayer.play None [SubmitWord (lit "apple")] in
  (snd (Solo.submit s1 u) = GameOver ChainBroken (lit "banana") /\
   Solo.game_over (fst (Solo.submit s1 u)) = true) /\
  (snd (TwoPlayer.submit s2 u) = GameOver ChainBroken (lit "banana") /\
   TwoPlayer.game_over (fst (TwoPlayer.submit s2 u)) = true).
Proof.
  intros u s1 s2.
  assert (Hc : first_char (strip u) = Some 98%N) by reflexivity.
  assert (Hcd : 98%N <> 101%N) by discriminate.
  destruct (chain_break_ends_game u Hc Hcd) as [HS HT].
  split.
  - apply (HS s1); [vm_compute; intros [H | []]; discriminate H | reflexivity].
  - apply (HT s2); [vm_compute; intros [H | []]; discriminate H | reflexivity].
Defined.

(** C4.  Two-player turn order.  From a fresh game the first accepted word
    hands the turn to B with the turn counter still 1, and a second accepted
    word hands it back to A with the counter at 2.  In every state reached
    by play the player is A or B; an accepted word switches A to B with the
    counter unchanged and B to A with the counter one higher; a submission
    that is not accepted changes neither. *)
Theorem two_player_turn_order :
  (forall prev u1 u2,
      let s0 := TwoPlayer.initialize_game prev in
      let s1 := fst (TwoPlayer.submit s0 u1) in
      let s2 := fst (TwoPlayer.submit s1 u2) in
      TwoPlayer.current_player s0 = TwoPlayer.player_A /\
      (is_accepted (snd (TwoPlayer.submit s0 u1)) = true ->
       (TwoPlayer.current_player s1 = TwoPlayer.player_B /\
        TwoPlayer.current_turn s1 = 1%Z) /\
       (is_accepted (snd (TwoPlayer.submit s1 u2)) = true ->
        TwoPlayer.current_player s2 = TwoPlayer.player_A /\
        TwoPlayer.current_turn s2 = 2%Z))) /\
  (forall prev acts u,
      let s := TwoPlayer.play prev acts in
      let s' := fst (TwoPlayer.submit s u) in
      (is_accepted (snd (TwoPlayer.submit s u)) = true ->
       (TwoPlayer.current_player s = TwoPlayer.player_A /\
        TwoPlayer.current_player s' = TwoPlayer.player_B /\
        TwoPlayer.current_turn s' = TwoPlayer.current_turn s) \/
       (TwoPlayer.current_player s = TwoPlayer.player_B /\
        TwoPlayer.current_player s' = TwoPlayer.player_A /\
        TwoPlayer.current_turn s' = (TwoPlayer.current_turn s + 1)%Z)) /\
      (is_accepted (snd (TwoPlayer.submit s u)) = false ->
       TwoPlayer.current_player s' = TwoPlayer.current_player s /\
       TwoPlayer.current_turn s' = TwoPlayer.current_turn s)).
Proof.
  assert (Hstep : forall s u,
    TwoPlayer.turn_ok s ->
    let s' := fst (TwoPlayer.submit s u) in
    (is_accepted (snd (TwoPlayer.submit s u)) = true ->
     (TwoPlayer.current_player s = TwoPlayer.player_A /\
      TwoPlayer.current_player s' = TwoPlayer.player_B /\
      TwoPlayer.current_turn s' = TwoPlayer.current_turn s) \/
     (TwoPlayer.current_player s = TwoPlayer.player_B /\
      TwoPlayer.current_player s' = TwoPlayer.player_A /\
      TwoPlayer.current_turn s' = (TwoPlayer.current_turn s + 1)%Z)) /\
    (is_accepted (snd (TwoPlayer.submit s u)) = false ->
     TwoPlayer.current_player s' = TwoPlayer.current_player s /\
     TwoPlayer.current_turn s' = TwoPlayer.current_turn s)).
  { intros s u Hok s'; subst s'.
    destruct (two_submit_cases s u) as [(Hrej & _ & Ht & Hp & _) | (E & _)].
    - split; [rewrite Hrej; discriminate | auto].
    - rewrite E; cbn [fst snd is_accepted]; split; [intros _ | discriminate].
      unfold TwoPlayer.accepted_session;
        cbn [TwoPlayer.current_player TwoPlayer.current_turn].
      destruct Hok as [[Hp _] | [Hp _]]; rewrite Hp; [left | right]; auto. }
  split.
  - intros prev u1 u2 s0 s1 s2; split; [reflexivity|].
    destruct (Hstep s0 u1 (two_turn_ok_init prev)) as [Hacc1 _].
    intros H1; destruct (Hacc1 H1) as [(_ & Hp1 & Ht1) | (Hp0 & _)];
      [|discriminate Hp0].
    fold s1 in Hp1, Ht1; split; [split; [exact Hp1 | exact Ht1]|].
    assert (Hok1 : TwoPlayer.turn_ok s1)
      by (apply two_turn_ok_submit, two_turn_ok_init).
    destruct (Hstep s1 u2 Hok1) as [Hacc2 _].
    intros H2; destruct (Hacc2 H2) as [(Hp & _) | (_ & Hp2 & Ht2)].
    + rewrite Hp1 in Hp; discriminate Hp.
    + fold s2 in Hp2, Ht2; rewrite Ht2, Ht1; split; [exact Hp2 | reflexivity].
  - intros prev acts u; apply Hstep, two_play_ok.
Qed.

Lemma two_player_turn_order_witness :
  let s0 := TwoPlayer.initialize_game None in
  let s1 := fst (TwoPlayer.submit s0 (lit "apple")) in
  let s2 := fst (TwoPlayer.submit s1 (lit "elephant")) in
  let s := TwoPlayer.play None [SubmitWord (lit "apple")] in
  let s' := fst (TwoPlayer.submit s (lit "elephant")) in
  ((TwoPlayer.current_player s1 = TwoPlayer.player_B /\
    TwoPlayer.current_turn s1 = 1%Z) /\
   (TwoPlayer.current_player s2 = TwoPlayer.player_A /\
    TwoPlayer.current_turn s2 = 2%Z)) /\
  ((TwoPlayer.current_player s = TwoPlayer.player_A /\
    TwoPlayer.current_player s' = TwoPlayer.player_B /\
    TwoPlayer.current_turn s' = TwoPlayer.current_turn s) \/
   (TwoPlayer.current_player s = TwoPlayer.player_B /\
    TwoPlayer.current_player s' = TwoPlayer.player_A /\
    TwoPlayer.current_turn s' = (TwoPlayer.current_turn s + 1)%Z)).
Proof.
  intros s0 s1 s2 s s'.
  destruct two_player_turn_order as [Hfresh Hany].
  assert (A1 : is_accepted (snd (TwoPlayer.submit s0 (lit "apple"))) = true)
    by (vm_compute; reflexivity).
  assert (A2 : is_accepted (snd (TwoPlayer.submit s1 (lit "elephant"))) = true)
    by (vm_compute; reflexivity).
  assert (A3 : is_accepted (snd (TwoPlayer.submit s (lit "elephant"))) = true)
    by (vm_compute; reflexivity).
  split.
  - destruct (Hfresh None (lit "apple") (lit "elephant")) as [_ H1].
    destruct (H1 A1) as [HB H2].
    split; [exact HB | exact (H2 A2)].
  - destruct (Hany None [SubmitWord (lit "apple")] (lit "elephant"))
      as [Hacc _].
    exact (Hacc A3).
Defined.

(** C5, as the code has it.  A submission whose stripped form is empty is
    rejected: the outcome is [Rejected EmptyInput]; history, turn counter,
    last word, [game_over] (and, with two players, the player) keep their
    values, and [message] is set to the prompt asking for a word. *)
Theorem empty_input_rejected (u : str) :
  strip u = [] ->
  (forall s : Solo.Session,
      let s' := fst (Solo.submit s u) in
      snd (Solo.submit s u) = Rejected EmptyInput /\
      Solo.word_history s' = Solo.word_history s /\
      Solo.current_turn s' = Solo.current_turn s /\
      Solo.last_word s' = Solo.last_word s /\
      Solo.game_over s' = Solo.game_over s /\
      Solo.message s' = Solo.msg_enter_word) /\
  (forall s : TwoPlayer.Session,
      let s' := fst (TwoPlayer.submit s u) in
      snd (TwoPlayer.submit s u) = Rejected EmptyInput /\
      TwoPlayer.word_history s' = TwoPlayer.word_history s /\
      TwoPlayer.current_turn s' = TwoPlayer.current_turn s /\
      TwoPlayer.last_word s' = TwoPlayer.last_word s /\
      TwoPlayer.game_over s' = TwoPlayer.game_over s /\
      TwoPlayer.current_player s' = TwoPlayer.current_player s /\
      TwoPlayer.input_key_counter s' = TwoPlayer.input_key_counter s /\
      TwoPlayer.message s' = TwoPlayer.msg_enter_word).
Proof.
  intros H; split; intros s s'; subst s'.
  - rewrite (solo_submit_rejected s u H); repeat split.
  - rewrite (two_submit_rejected s u H); repeat split.
Qed.

Lemma empty_input_rejected_witness :
  let u := lit "   " in
  let s := Solo.play None [SubmitWord (lit "apple")] in
  strip u = [] /\
  snd (Solo.submit s u) = Rejected EmptyInput /\
  Solo.word_history (fst (Solo.submit s u)) = [lit "apple"] /\
  Solo.message (fst (Solo.submit s u)) = Solo.msg_enter_word.
Proof.
  intros u s.
  assert (H : strip u = []) by (vm_compute; reflexivity).
  split; [exact H|].
  destruct (empty_input_rejected u H) as [HS _].
  destruct (HS s) as (Ho & Hh & _ & _ & _ & Hm).
  split; [exact Ho | split; [exact Hh | exact Hm]].
Defined.

(** C5 as stated fails: on a fresh game an empty submission replaces the
    start message by the prompt, so the session is not the one it was. *)
Lemma empty_input_changes_message :
  strip (lit "   ") = [] /\
  fst (Solo.submit (Solo.initialize_game None) (lit "   "))
  <> Solo.initialize_game None /\
  fst (TwoPlayer.submit (TwoPlayer.initialize_game None) (lit "   "))
  <> TwoPlayer.initialize_game None.
Proof.
  split; [vm_compute; reflexivity|]; split; intros E.
  - apply (f_equal Solo.message) in E; vm_compute in E; discriminate E.
  - apply (f_equal TwoPlayer.message) in E; vm_compute in E; discriminate E.
Qed.

(** C6.  A submission made only of whitespace (or of nothing), against a
    state that is not over, leaves history, last word, turn counter and
    player as they were, and the game is still not over. *)
Theorem whitespace_input_frame (u : str) :
  Forall (fun c => is_space c = true) u ->
  (forall s : Solo.Session,
      Solo.game_over s = false ->
      let s' := fst (Solo.submit s u) in
      Solo.word_history s' = Solo.word_history s /\
      Solo.last_word s' = Solo.last_word s /\
      Solo.current_turn s' = Solo.current_turn s /\
      Solo.game_over s' = false) /\
  (forall s : TwoPlayer.Session,
      TwoPlayer.game_over s = false ->
      let s' := fst (TwoPlayer.submit s u) in
      TwoPlayer.word_history s' = TwoPlayer.word_history s /\
      TwoPlayer.last_word s' = TwoPlayer.last_word s /\
      TwoPlayer.current_turn s' = TwoPlayer.current_turn s /\
      TwoPlayer.current_player s' = TwoPlayer.current_player s /\
      TwoPlayer.game_over s' = false).
Proof.
  intros Hsp; pose proof (strip_spaces Hsp) as H.
  split; intros s Hlive s'; subst s'.
  - rewrite (solo_submit_rejected s u H); repeat split; exact Hlive.
  - rewrite (two_submit_rejected s u H); repeat split; exact Hlive.
Qed.

Lemma whitespace_input_frame_witness :
  let u := [32; 9; 12288]%N in
  let s := TwoPlayer.play None [SubmitWord (lit "apple")] in
  let s' := fst (TwoPlayer.submit s u) in
  Forall (fun c => is_space c = true) u /\
  TwoPlayer.game_over s = false /\
  TwoPlayer.word_history s' = TwoPlayer.word_history s /\
  TwoPlayer.last_word s' = TwoPlayer.last_word s /\
  TwoPlayer.current_turn s' = TwoPlayer.current_turn s /\
  TwoPlayer.current_player s' = TwoPlayer.current_player s /\
  TwoPlayer.game_over s' = false.
Proof.
  intros u s s'.
  assert (Hsp : Forall (fun c => is_space c = true) u)
    by (repeat constructor).
  assert (Hlive : TwoPlayer.game_over s = false) by reflexivity.
  split; [exact Hsp | split; [exact Hlive|]].
  destruct (whitespace_input_frame Hsp) as [_ HT].
  exact (HT s Hlive).
Defined.

(** C7.  In the one-player game the turn counter goes up by one on an
    accepted submission and stays on every other outcome; on a fresh game
    "apple" is accepted, the history becomes ["apple"] and the counter 2. *)
Theorem solo_turn_counts_accepted_words :
  (forall (s : Solo.Session) (u : str),
      Solo.current_turn (fst (Solo.submit s u))
      = (Solo.current_turn s
         + if is_accepted (snd (Solo.submit s u)) then 1 else 0)%Z) /\
  (forall prev,
      let r := Solo.submit (Solo.initialize_game prev) (lit "apple") in
      snd r = Accepted (lit "apple") /\
      Solo.word_history (fst r) = [lit "apple"] /\
      Solo.current_turn (fst r) = 2%Z).
Proof.
  split.
  - intros s u; unfold Solo.submit; submit_exits s u; lia.
  - intros prev; vm_compute; repeat split.
Qed.

(** C8.  The history never holds a word twice: after a reset and any
    sequence of submissions and resets, and after any sequence of runs of
    [main()], in both games. *)
Theorem history_has_no_duplicates :
  (forall prev acts, NoDup (Solo.word_history (Solo.play prev acts))) /\
  (forall prev acts,
      NoDup (TwoPlayer.word_history (TwoPlayer.play prev acts))) /\
  (forall rs,
      match Solo.runs rs with
      | Some s => NoDup (Solo.word_history s)
      | None => rs = []
      end) /\
  (forall rs,
      match TwoPlayer.runs rs with
      | Some s => NoDup (TwoPlayer.word_history s)
      | None => rs = []
      end).
Proof.
  split; [|split; [|split]].
  - intros prev acts; apply solo_play_history_ok.
  - intros prev acts; apply two_play_ok.
  - intros [|r rs]; [reflexivity|].
    pose proof (solo_fold_main_history_ok rs (Some (Solo.main None r))) as H.
    unfold Solo.runs; simpl fold_left.
    destruct (fold_left _ rs _) as [s|] eqn:E.
    + apply H; apply solo_main_history_ok; exact I.
    + exfalso; revert E; apply fold_runs_some; discriminate.
  - intros [|r rs]; [reflexivity|].
    pose proof (two_fold_main_ok rs (Some (TwoPlayer.main None r))) as H.
    unfold TwoPlayer.runs; simpl fold_left.
    destruct (fold_left _ rs _) as [s|] eqn:E.
    + apply H; apply two_main_ok; exact I.
    + exfalso; revert E; apply fold_runs_some; discriminate.
Qed.

(** C9.  [initialize_game] gives the same fresh game whatever session it
    overwrites: empty history, turn counter 1, empty last word, not over,
    the start message and, with two players, player A.  The one-player
    session is the same record every time; the two-player session is the
    same up to [input_key_counter], the key of the text field. *)
Theorem initialize_game_fresh :
  (forall prev,
      let s := Solo.initialize_game prev in
      Solo.word_history s = [] /\
      Solo.current_turn s = 1%Z /\
      Solo.last_word s = [] /\
      Solo.game_over s = false /\
      Solo.message s = Solo.msg_start) /\
  (forall prev,
      let s := TwoPlayer.initialize_game prev in
      TwoPlayer.word_history s = [] /\
      TwoPlayer.current_turn s = 1%Z /\
      TwoPlayer.last_word s = [] /\
      TwoPlayer.game_over s = false /\
      TwoPlayer.message s = TwoPlayer.msg_start /\
      TwoPlayer.current_player s = TwoPlayer.player_A) /\
  (forall prev prev',
      Solo.initialize_game prev = Solo.initialize_game prev') /\
  (forall prev prev' k,
      TwoPlayer.set_input_key_counter (TwoPlayer.initialize_game prev) k
      = TwoPlayer.set_input_key_counter (TwoPlayer.initialize_game prev') k) /\
  (forall prev acts,
      Solo.step (Solo.play prev acts) Reset = Solo.initialize_game None).
Proof.
  split; [|split; [|split; [|split]]].
  - intros prev s; subst s.
    cbv [Solo.initialize_game Solo.word_history Solo.current_turn
         Solo.last_word Solo.game_over Solo.message].
    repeat (split; [reflexivity|]); reflexivity.
  - intros prev s; subst s.
    cbv [TwoPlayer.initialize_game TwoPlayer.word_history
         TwoPlayer.current_turn TwoPlayer.last_word TwoPlayer.game_over
         TwoPlayer.message TwoPlayer.current_player].
    repeat (split; [reflexivity|]); reflexivity.
  - intros prev prev'; reflexivity.
  - intros prev prev' k.
    cbv [TwoPlayer.set_input_key_counter TwoPlayer.initialize_game
         TwoPlayer.word_history TwoPlayer.current_turn TwoPlayer.last_word
         TwoPlayer.game_over TwoPlayer.message TwoPlayer.current_player].
    reflexivity.
  - intros prev acts; reflexivity.
Qed.

(** C10.  In every state of the two-player game reached by play that is not
    over, the player is A exactly when the history has an even number of
    words, and the turn counter is that number divided by two, plus one. *)
Theorem two_player_state_from_history (prev : option TwoPlayer.Session)
        (acts : list Action) :
  let s := TwoPlayer.play prev acts in
  TwoPlayer.game_over s = false ->
  (TwoPlayer.current_player s = TwoPlayer.player_A <->
   Nat.Even (List.length (TwoPlayer.word_history s))) /\
  TwoPlayer.current_turn s
  = (Z.of_nat (List.length (TwoPlayer.word_history s)) / 2 + 1)%Z.
Proof.
  intros s _; apply two_turn_ok_reading, two_play_ok.
Qed.

Lemma two_player_state_from_history_witness :
  let acts := [SubmitWord (lit "apple"); SubmitWord (lit "elephant");
               SubmitWord (lit "tea")] in
  let s := TwoPlayer.play None acts in
  TwoPlayer.game_over s = false /\
  (TwoPlayer.current_player s = TwoPlayer.player_A <->
   Nat.Even (List.length (TwoPlayer.word_history s))) /\
  TwoPlayer.current_turn s
  = (Z.of_nat (List.length (TwoPlayer.word_history s)) / 2 + 1)%Z.
Proof.
  intros acts s.
  assert (Hlive : TwoPlayer.game_over s = false) by (vm_compute; reflexivity).
  split; [exact Hlive|].
  exact (two_player_state_from_history None acts Hlive).
Defined.

(** ** Further properties of the submit block *)

Lemma chain_test_true (l w : str) :
  truthy w = true ->
  truthy l && char_neb (first_char w) (last_char l) = true ->
  exists c d, first_char w = Some c /\ last_char l = Some d /\ c <> d.
Proof.
  intros Hw H; apply andb_true_iff in H; destruct H as [Hl Hne].
  destruct (chain_test_defined l w Hw Hl) as (c & d & Hc & Hd).
  exists c, d; repeat split; try assumption.
  rewrite Hc, Hd in Hne; apply char_neb_some; exact Hne.
Qed.

Lemma chain_test_false (l w : str) :
  truthy w = true ->
  truthy l && char_neb (first_char w) (last_char l) = false ->
  chains l w.
Proof.
  intros Hw H; destruct (truthy l) eqn:Hl.
  - destruct (chain_test_defined l w Hw Hl) as (c & d & Hc & Hd).
    right; exists c; split; [exact Hc|].
    rewrite Hc, Hd in H; simpl in H; apply negb_false_iff, N.eqb_eq in H.
    rewrite Hd, H; reflexivity.
  - left; destruct l; [reflexivity | discriminate Hl].
Qed.

(** X1.  Every outcome is justified by the input, in both games: a rejection
    means the stripped input is empty; a duplicate game over means the
    stripped word is in the history; a broken-chain game over means it is
    new and starts with another code point than the previous word ends with;
    an acceptance means it is not empty, new, and chains.  So the block
    never accepts an empty word, a used word or a word that breaks the
    chain. *)
Theorem outcome_justified :
  (forall (s : Solo.Session) (u : str),
      outcome_sound (Solo.word_history s) (Solo.last_word s) u
                    (snd (Solo.submit s u))) /\
  (forall (s : TwoPlayer.Session) (u : str),
      outcome_sound (TwoPlayer.word_history s) (TwoPlayer.last_word s) u
                    (snd (TwoPlayer.submit s u))).
Proof.
  split; intros s u.
  - unfold Solo.submit; submit_exits s u.
    + split; [reflexivity|]; split;
        [apply truthy_true | apply contains_In]; assumption.
    + split; [reflexivity|]; split;
        [apply contains_not_In; assumption
        | apply chain_test_true; assumption].
    + split; [reflexivity|]; split; [apply truthy_true; assumption|].
      split; [apply contains_not_In | apply chain_test_false]; assumption.
    + destruct (strip u); [reflexivity | discriminate Hword].
    + destruct u; [reflexivity | discriminate Hinput].
  - unfold TwoPlayer.submit; submit_exits s u.
    + split; [reflexivity|]; split;
        [apply truthy_true | apply contains_In]; assumption.
    + split; [reflexivity|]; split;
        [apply contains_not_In; assumption
        | apply chain_test_true; assumption].
    + split; [reflexivity|]; split; [apply truthy_true; assumption|].
      split; [apply contains_not_In | apply chain_test_false]; assumption.
    + destruct (strip u); [reflexivity | discriminate Hword].
    + destruct u; [reflexivity | discriminate Hinput].
Qed.

(** X2.  The over flag is raised by the two game-over exits and by nothing
    else, and the block never lowers it: after a submission the flag is the
    old flag or-ed with "the outcome is a game over". *)
Theorem game_over_flag_tracks_outcome :
  (forall (s : Solo.Session) (u : str),
      Solo.game_over (fst (Solo.submit s u))
      = Solo.game_over s || is_game_over (snd (Solo.submit s u))) /\
  (forall (s : TwoPlayer.Session) (u : str),
      TwoPlayer.game_over (fst (TwoPlayer.submit s u))
      = TwoPlayer.game_over s || is_game_over (snd (TwoPlayer.submit s u))).
Proof.
  split; intros s u.
  - unfold Solo.submit; submit_exits s u;
      rewrite ?orb_true_r, ?orb_false_r; reflexivity.
  - unfold TwoPlayer.submit; submit_exits s u;
      rewrite ?orb_true_r, ?orb_false_r; try reflexivity.
    destruct (str_eqb (TwoPlayer.current_player s) TwoPlayer.player_A);
      reflexivity.
Qed.

Lemma solo_submit_ignores_message (s : Solo.Session) (m u : str) :
  Solo.submit (Solo.set_message s m) u = Solo.submit s u.
Proof.
  unfold Solo.submit;
    cbn [Solo.set_message Solo.word_history Solo.last_word Solo.game_over
         Solo.current_turn Solo.message].
  submit_exits s u; reflexivity.
Qed.

Lemma two_submit_ignores_message (s : TwoPlayer.Session) (m u : str) :
  TwoPlayer.submit (TwoPlayer.set_message s m) u = TwoPlayer.submit s u.
Proof.
  unfold TwoPlayer.submit;
    cbn [TwoPlayer.set_message TwoPlayer.word_history TwoPlayer.last_word
         TwoPlayer.game_over TwoPlayer.current_turn TwoPlayer.message
         TwoPlayer.current_player TwoPlayer.input_key_counter].
  submit_exits s u; reflexivity.
Qed.

(** X3.  A rejected submission leaves no trace on later play: since every
    exit of the block overwrites the message, submitting [u] after an empty
    or blank input gives the same session and the same outcome as
    submitting [u] at once. *)
Theorem rejection_leaves_no_trace (blank : str) :
  strip blank = [] ->
  (forall (s : Solo.Session) (u : str),
      Solo.submit (fst (Solo.submit s blank)) u = Solo.submit s u) /\
  (forall (s : TwoPlayer.Session) (u : str),
      TwoPlayer.submit (fst (TwoPlayer.submit s blank)) u
      = TwoPlayer.submit s u).
Proof.
  intros H; split; intros s u.
  - rewrite (solo_submit_rejected s blank H); apply solo_submit_ignores_message.
  - rewrite (two_submit_rejected s blank H); apply two_submit_ignores_message.
Qed.

Lemma rejection_leaves_no_trace_witness :
  let blank := [32; 10]%N in
  let s := Solo.play None [SubmitWord (lit "apple")] in
  strip blank = [] /\
  Solo.submit (fst (Solo.submit s blank)) (lit "elephant")
  = Solo.submit s (lit "elephant").
Proof.
  intros blank s.
  assert (H : strip blank = []) by (vm_compute; reflexivity).
  split; [exact H|].
  destruct (rejection_leaves_no_trace blank H) as [HS _].
  exact (HS s (lit "elephant")).
Defined.

(** ** More facts about [strip] *)

Lemma lstrip_head (s t : str) (c : codepoint) :
  lstrip s = c :: t -> is_space c = false.
Proof.
  induction s as [|a s IH]; simpl; [discriminate|].
  destruct (is_space a) eqn:Ha; [exact IH|].
  intros [= <- _]; exact Ha.
Qed.

Lemma lstrip_idem (s : str) : lstrip (lstrip s) = lstrip s.
Proof.
  induction s as [|a s IH]; simpl; [reflexivity|].
  destruct (is_space a) eqn:Ha; [exact IH|].
  simpl; rewrite Ha; reflexivity.
Qed.

Lemma lstrip_snoc (s : str) (c : codepoint) :
  is_space c = false -> lstrip (s ++ [c]) = lstrip s ++ [c].
Proof.
  intros Hc; induction s as [|a s IH]; simpl; [rewrite Hc; reflexivity|].
  destruct (is_space a); [exact IH | reflexivity].
Qed.

(** [strip] leaves a stripped string alone. *)
Lemma strip_idem (s : str) : strip (strip s) = strip s.
Proof.
  unfold strip, rstrip.
  set (t := lstrip s).
  assert (Hfix : lstrip (rev (lstrip (rev t))) = rev (lstrip (rev t))).
  { destruct t as [|c t'] eqn:Et; [reflexivity|].
    pose proof (@lstrip_head s t' c Et) as Hc.
    simpl rev; rewrite (@lstrip_snoc (rev t') c Hc), rev_app_distr; simpl.
    rewrite Hc; reflexivity. }
  rewrite Hfix, rev_involutive, lstrip_idem; reflexivity.
Qed.

(** ** Invariants of the history *)

Lemma last_In (h : list str) : h <> [] -> In (last h []) h.
Proof.
  induction h as [|a h IH]; [congruence|]; intros _.
  destruct h as [|b h]; [left; reflexivity|].
  right; apply IH; discriminate.
Qed.

Lemma is_chain_snoc (h : list str) (w : str) :
  is_chain h = true -> h = [] \/ linked (last h []) w = true ->
  is_chain (h ++ [w]) = true.
Proof.
  induction h as [|a h IH]; intros Hc Hl; [reflexivity|].
  destruct h as [|b h].
  - destruct Hl as [Hl | Hl]; [discriminate Hl|].
    simpl in *; rewrite Hl; reflexivity.
  - change (linked a b && is_chain ((b :: h) ++ [w]) = true).
    change (linked a b && is_chain (b :: h) = true) in Hc.
    apply andb_true_iff in Hc; destruct Hc as [Hab Hc].
    rewrite Hab; apply IH; [exact Hc|].
    right; destruct Hl as [Hl | Hl]; [discriminate Hl | exact Hl].
Qed.

Lemma chains_linked (l w : str) : l <> [] -> chains l w -> linked l w = true.
Proof.
  intros Hl [E | (c & Hc & Hd)]; [contradiction|].
  unfold linked; rewrite Hc, Hd; simpl; rewrite N.eqb_refl; reflexivity.
Qed.

Lemma game_inv_step (h h' : list str) (l l' u : str) :
  history_step h l h' l' u ->
  history_ok h -> game_inv h l -> game_inv h' l'.
Proof.
  intros [[-> ->] | (-> & -> & Hne & Hnin & Hch)] [_ Hall] (Hl & Hc & Hs);
    [repeat split; assumption|].
  split; [symmetry; apply last_last|]; split.
  - apply is_chain_snoc; [exact Hc|].
    destruct h as [|a h]; [left; reflexivity | right].
    rewrite <- Hl; apply chains_linked; [|exact Hch].
    rewrite Hl; rewrite Forall_forall in Hall; apply Hall, last_In.
    discriminate.
  - apply Forall_app; split; [exact Hs|].
    constructor; [apply strip_idem | constructor].
Qed.

Lemma solo_submit_step (s : Solo.Session) (u : str) :
  history_step (Solo.word_history s) (Solo.last_word s)
               (Solo.word_history (fst (Solo.submit s u)))
               (Solo.last_word (fst (Solo.submit s u))) u.
Proof.
  unfold Solo.submit, history_step; submit_exits s u; auto.
  right; repeat split.
  - apply truthy_true; exact Hword.
  - apply contains_not_In; exact Hdup.
  - apply chain_test_false; assumption.
Qed.

Lemma two_submit_step (s : TwoPlayer.Session) (u : str) :
  history_step (TwoPlayer.word_history s) (TwoPlayer.last_word s)
               (TwoPlayer.word_history (fst (TwoPlayer.submit s u)))
               (TwoPlayer.last_word (fst (TwoPlayer.submit s u))) u.
Proof.
  unfold TwoPlayer.submit, history_step; submit_exits s u; auto.
  right.
  destruct (str_eqb (TwoPlayer.current_player s) TwoPlayer.player_A);
    (repeat split;
     [ apply truthy_true; exact Hword
     | apply contains_not_In; exact Hdup
     | apply chain_test_false; assumption ]).
Qed.

Lemma solo_play_game_inv (prev : option Solo.Session) (acts : list Action) :
  game_inv (Solo.word_history (Solo.play prev acts))
           (Solo.last_word (Solo.play prev acts)).
Proof.
  unfold Solo.play.
  assert (H0 : history_ok (Solo.word_history (Solo.initialize_game prev)) /\
               game_inv (Solo.word_history (Solo.initialize_game prev))
                        (Solo.last_word (Solo.initialize_game prev)))
    by (split; [apply history_ok_nil | repeat split; constructor]).
  revert H0; generalize (Solo.initialize_game prev) as s.
  induction acts as [|a acts IH]; intros s [Hok Hinv]; [exact Hinv|].
  simpl; apply IH; split; [apply solo_step_history_ok, Hok|].
  destruct a as [|u]; simpl; [repeat split; constructor|].
  exact (game_inv_step (solo_submit_step s u) Hok Hinv).
Qed.

Lemma two_play_game_inv (prev : option TwoPlayer.Session)
      (acts : list Action) :
  game_inv (TwoPlayer.word_history (TwoPlayer.play prev acts))
           (TwoPlayer.last_word (TwoPlayer.play prev acts)).
Proof.
  unfold TwoPlayer.play.
  assert (H0 : history_ok
                 (TwoPlayer.word_history (TwoPlayer.initialize_game prev)) /\
               game_inv
                 (TwoPlayer.word_history (TwoPlayer.initialize_game prev))
                 (TwoPlayer.last_word (TwoPlayer.initialize_game prev)))
    by (split; [apply history_ok_nil | repeat split; constructor]).
  revert H0; generalize (TwoPlayer.initialize_game prev) as s.
  induction acts as [|a acts IH]; intros s [Hok Hinv]; [exact Hinv|].
  simpl; apply IH; split.
  - destruct a as [|u]; simpl; [apply history_ok_nil|].
    apply history_ok_step with (w := strip u) (h := TwoPlayer.word_history s);
      [apply two_submit_history | exact Hok].
  - destruct a as [|u]; simpl; [repeat split; constructor|].
    exact (game_inv_step (two_submit_step s u) Hok Hinv).
Qed.

(** X4.  In every state reached by play, in both games, [last_word] is the
    last entry of [word_history], and is empty exactly when the history is
    empty. *)
Theorem last_word_is_last_entry :
  (forall prev acts,
      let s := Solo.play prev acts in
      Solo.last_word s = last (Solo.word_history s) [] /\
      (Solo.last_word s = [] <-> Solo.word_history s = [])) /\
  (forall prev acts,
      let s := TwoPlayer.play prev acts in
      TwoPlayer.last_word s = last (TwoPlayer.word_history s) [] /\
      (TwoPlayer.last_word s = [] <-> TwoPlayer.word_history s = [])).
Proof.
  assert (Hgen : forall (h : list str) (l : str),
             history_ok h -> game_inv h l ->
             l = last h [] /\ (l = [] <-> h = [])).
  { intros h l [_ Hall] (Hl & _); split; [exact Hl|]; split.
    - intros E; destruct h as [|a h]; [reflexivity | exfalso].
      rewrite Forall_forall in Hall.
      apply (Hall (last (a :: h) [])); [apply last_In; discriminate|].
      rewrite <- Hl; exact E.
    - intros ->; exact Hl. }
  split; intros prev acts s; apply Hgen.
  - apply solo_play_history_ok.
  - apply solo_play_game_inv.
  - apply two_play_ok.
  - apply two_play_game_inv.
Qed.

(** X5.  In every state reached by play, in both games, the history is a
    chain: each word starts with the code point the word before it ends
    with. *)
Theorem history_is_chain :
  (forall prev acts,
      is_chain (Solo.word_history (Solo.play prev acts)) = true) /\
  (forall prev acts,
      is_chain (TwoPlayer.word_history (TwoPlayer.play prev acts)) = true).
Proof.
  split; intros prev acts.
  - apply (solo_play_game_inv prev acts).
  - apply (two_play_game_inv prev acts).
Qed.

(** X6.  In every state reached by play, in both games, every word of the
    history is non-empty and equal to its own stripped form: inputs are
    stored without their surrounding whitespace. *)
Theorem history_words_stripped :
  (forall prev acts,
      Forall (fun w => w <> [] /\ strip w = w)
             (Solo.word_history (Solo.play prev acts))) /\
  (forall prev acts,
      Forall (fun w => w <> [] /\ strip w = w)
             (TwoPlayer.word_history (TwoPlayer.play prev acts))).
Proof.
  assert (Hgen : forall (h : list str) (l : str),
             history_ok h -> game_inv h l ->
             Forall (fun w => w <> [] /\ strip w = w) h).
  { intros h l [_ Hne] (_ & _ & Hs).
    rewrite Forall_forall in *; intros w Hw; split; auto. }
  split; intros prev acts.
  - apply Hgen with (l := Solo.last_word (Solo.play prev acts));
      [apply solo_play_history_ok | apply solo_play_game_inv].
  - apply Hgen with (l := TwoPlayer.last_word (TwoPlayer.play prev acts));
      [apply two_play_ok | apply two_play_game_inv].
Qed.

(** X7.  In every state of the one-player game reached by play, the turn
    counter is the number of words in the history plus one. *)
Theorem solo_turn_is_history_length :
  forall prev acts,
    Solo.current_turn (Solo.play prev acts)
    = (Z.of_nat (List.length (Solo.word_history (Solo.play prev acts))) + 1)%Z.
Proof.
  intros prev acts; unfold Solo.play.
  assert (H0 : Solo.current_turn (Solo.initialize_game prev)
               = (Z.of_nat (List.length
                    (Solo.word_history (Solo.initialize_game prev))) + 1)%Z)
    by reflexivity.
  revert H0; generalize (Solo.initialize_game prev) as s.
  induction acts as [|a acts IH]; intros s H; [exact H|].
  simpl; apply IH; destruct a as [|u]; [reflexivity|].
  simpl; unfold Solo.submit; submit_exits s u; try exact H.
  rewrite length_app, Nat2Z.inj_add, H; simpl; lia.
Qed.

(** ** The runs of [main()] *)

Lemma solo_play_snoc (prev : option Solo.Session) (acts : list Action)
      (a : Action) :
  Solo.play prev (acts ++ [a]) = Solo.step (Solo.play prev acts) a.
Proof. unfold Solo.play; rewrite fold_left_app; reflexivity. Qed.

Lemma two_play_snoc (prev : option TwoPlayer.Session) (acts : list Action)
      (a : Action) :
  TwoPlayer.play prev (acts ++ [a])
  = TwoPlayer.step (TwoPlayer.play prev acts) a.
Proof. unfold TwoPlayer.play; rewrite fold_left_app; reflexivity. Qed.

Lemma solo_main_is_play (acts : list Action) (r : Run) :
  exists acts',
    Solo.main (Some (Solo.play None acts)) r = Solo.play None acts'.
Proof.
  unfold Solo.main.
  destruct (Solo.game_over (Solo.play None acts)),
           (clicked r) as [[| |]|];
    try (exists acts; reflexivity);
    try (exists (acts ++ [Reset]); rewrite solo_play_snoc; reflexivity).
  exists (acts ++ [SubmitWord (user_input r)]).
  rewrite solo_play_snoc; reflexivity.
Qed.

Lemma two_main_is_play (acts : list Action) (r : Run) :
  exists acts',
    TwoPlayer.main (Some (TwoPlayer.play None acts)) r
    = TwoPlayer.play None acts'.
Proof.
  unfold TwoPlayer.main.
  destruct (TwoPlayer.game_over (TwoPlayer.play None acts)),
           (clicked r) as [[| |]|];
    try (exists acts; reflexivity);
    try (exists (acts ++ [Reset]); rewrite two_play_snoc; reflexivity).
  exists (acts ++ [SubmitWord (user_input r)]).
  rewrite two_play_snoc; reflexivity.
Qed.

(** X8.  Whatever the page does over any number of runs of [main()], from
    an empty session store, amounts to a reset followed by submissions and
    resets: the session after the runs is the session after some list of
    actions.  (Before the first run the store is empty.) *)
Theorem runs_are_plays :
  (forall r rs, exists acts,
      Solo.runs (r :: rs) = Some (Solo.play None acts)) /\
  (forall r rs, exists acts,
      TwoPlayer.runs (r :: rs) = Some (TwoPlayer.play None acts)) /\
  Solo.runs [] = None /\ TwoPlayer.runs [] = None.
Proof.
  split; [|split; [|split; reflexivity]].
  - intros r rs; unfold Solo.runs; simpl fold_left.
    assert (H0 : exists acts,
               Solo.main None r = Solo.play None acts)
      by (apply (solo_main_is_play [] r)).
    destruct H0 as [acts0 ->]; revert acts0.
    induction rs as [|r' rs IH]; intros acts0; simpl;
      [exists acts0; reflexivity|].
    destruct (solo_main_is_play acts0 r') as [acts1 ->]; apply IH.
  - intros r rs; unfold TwoPlayer.runs; simpl fold_left.
    assert (H0 : exists acts,
               TwoPlayer.main None r = TwoPlayer.play None acts)
      by (apply (two_main_is_play [] r)).
    destruct H0 as [acts0 ->]; revert acts0.
    induction rs as [|r' rs IH]; intros acts0; simpl;
      [exists acts0; reflexivity|].
    destruct (two_main_is_play acts0 r') as [acts1 ->]; apply IH.
Qed.

(** X10.  Once the game is over, [main()] ignores everything but the
    new-game button: any number of runs that do not click it, whatever is
    typed and whichever other button is pressed, leave the session exactly
    as it was; a run that clicks it starts a fresh game. *)
Theorem game_over_is_frozen :
  (forall (s : Solo.Session) (rs : list Run),
      Solo.game_over s = true -> no_new_game rs ->
      fold_left (fun ss r => Some (Solo.main ss r)) rs (Some s) = Some s) /\
  (forall (s : TwoPlayer.Session) (rs : list Run),
      TwoPlayer.game_over s = true -> no_new_game rs ->
      fold_left (fun ss r => Some (TwoPlayer.main ss r)) rs (Some s)
      = Some s) /\
  (forall (s : Solo.Session) (r : Run),
      Solo.game_over s = true -> clicked r = Some NewGame ->
      Solo.main (Some s) r = Solo.initialize_game (Some s)) /\
  (forall (s : TwoPlayer.Session) (r : Run),
      TwoPlayer.game_over s = true -> clicked r = Some NewGame ->
      TwoPlayer.main (Some s) r = TwoPlayer.initialize_game (Some s)).
Proof.
  split; [|split; [|split]].
  - intros s rs Hover Hrs; induction Hrs as [|r rs Hr _ IH]; [reflexivity|].
    simpl; unfold Solo.main at 2; rewrite Hover.
    destruct (clicked r) as [[| |]|]; try exact IH; congruence.
  - intros s rs Hover Hrs; induction Hrs as [|r rs Hr _ IH]; [reflexivity|].
    simpl; unfold TwoPlayer.main at 2; rewrite Hover.
    destruct (clicked r) as [[| |]|]; try exact IH; congruence.
  - intros s r Hover Hr; unfold Solo.main; rewrite Hover, Hr; reflexivity.
  - intros s r Hover Hr; unfold TwoPlayer.main; rewrite Hover, Hr;
      reflexivity.
Qed.

Lemma game_over_is_frozen_witness :
  let s := Solo.play None [SubmitWord (lit "apple"); SubmitWord (lit "bee")] in
  let rs := [ {| user_input := lit "elephant"; clicked := Some Submit |};
              {| user_input := lit "egg"; clicked := Some Restart |};
              {| user_input := []; clicked := None |} ] in
  Solo.game_over s = true /\
  fold_left (fun ss r => Some (Solo.main ss r)) rs (Some s) = Some s.
Proof.
  intros s rs.
  assert (Hover : Solo.game_over s = true) by (vm_compute; reflexivity).
  split; [exact Hover|].
  destruct game_over_is_frozen as [HS _].
  apply (HS s rs Hover).
  repeat constructor; simpl; discriminate.
Defined.

(** ** The two games side by side *)

Lemma same_game_submit (s : Solo.Session) (t : TwoPlayer.Session) (u : str) :
  same_game s t ->
  snd (Solo.submit s u) = snd (TwoPlayer.submit t u) /\
  same_game (fst (Solo.submit s u)) (fst (TwoPlayer.submit t u)).
Proof.
  intros (Hh & Hl & Hg); unfold Solo.submit, TwoPlayer.submit, same_game.
  rewrite Hh, Hl; submit_exits s u; auto.
  destruct (str_eqb (TwoPlayer.current_player t) TwoPlayer.player_A);
    simpl; auto.
Qed.

(** X9.  The two games play the same game: after the same actions the
    one-player and the two-player session hold the same history, the same
    last word and the same over flag, and they answer any further input
    with the same outcome.  The two-player file only adds the player and a
    different turn count. *)
Theorem two_games_agree :
  forall (p : option Solo.Session) (q : option TwoPlayer.Session)
         (acts : list Action),
    same_game (Solo.play p acts) (TwoPlayer.play q acts) /\
    (forall u, snd (Solo.submit (Solo.play p acts) u)
               = snd (TwoPlayer.submit (TwoPlayer.play q acts) u)).
Proof.
  intros p q acts.
  assert (H : same_game (Solo.play p acts) (TwoPlayer.play q acts)).
  { unfold Solo.play, TwoPlayer.play.
    assert (H0 : same_game (Solo.initialize_game p)
                           (TwoPlayer.initialize_game q))
      by (repeat split).
    revert H0; generalize (Solo.initialize_game p) as s.
    generalize (TwoPlayer.initialize_game q) as t.
    induction acts as [|a acts IH]; intros t s H; [exact H|].
    simpl; apply IH; destruct a as [|u]; simpl; [repeat split|].
    apply same_game_submit, H. }
  split; [exact H | intros u; apply same_game_submit, H].
Qed.

(** ** The text field's key in the two-player game *)


(** ** Histories only grow *)

(** X12.  Submissions never remove or reorder words: after any sequence of
    submissions the old history is a prefix of the new one, in both games.
    Only a reset empties the history. *)
Theorem submissions_extend_history :
  (forall (s : Solo.Session) (us : list str),
      exists added,
        Solo.word_history (fold_left Solo.step (map SubmitWord us) s)
        = Solo.word_history s ++ added) /\
  (forall (s : TwoPlayer.Session) (us : list str),
      exists added,
        TwoPlayer.word_history
          (fold_left TwoPlayer.step (map SubmitWord us) s)
        = TwoPlayer.word_history s ++ added).
Proof.
  split; intros s us; revert s; induction us as [|u us IH]; intros s; simpl;
    try (exists []; rewrite app_nil_r; reflexivity).
  - destruct (IH (fst (Solo.submit s u))) as [t ->].
    destruct (solo_submit_history s u) as [-> | [-> _]];
      [exists t; reflexivity|].
    exists (strip u :: t); rewrite <- app_assoc; reflexivity.
  - destruct (IH (fst (TwoPlayer.submit s u))) as [t ->].
    destruct (two_submit_history s u) as [-> | [-> _]];
      [exists t; reflexivity|].
    exists (strip u :: t); rewrite <- app_assoc; reflexivity.
Qed.

(** ** The word list shown on the page *)

Lemma enumerate_from_nth (A : Type) (l : list A) (i : Z) (k : nat) :
  nth_error (enumerate_from i l) k
  = option_map (fun x => ((i + Z.of_nat k)%Z, x)) (nth_error l k).
Proof.
  revert i k; induction l as [|x l IH]; intros i [|k]; simpl;
    try reflexivity.
  - rewrite Z.add_0_r; reflexivity.
  - rewrite IH; destruct (nth_error l k); simpl; [|reflexivity].
    do 2 f_equal; lia.
Qed.

Lemma enumerate_from_length (A : Type) (l : list A) (i : Z) :
  List.length (enumerate_from i l) = List.length l.
Proof.
  revert i; induction l as [|x l IH]; intros i; simpl;
    [reflexivity | rewrite IH; reflexivity].
Qed.

(** X13.  The word list on the page shows the history newest first, each
    word with its 1-based position in play order: the word played at
    position [j] (from 0) is written on line [length - 1 - j] as
    "[j+1]. word".  A non-empty history gives one line per word; an empty
    one gives the single line saying that no word has been used. *)
Theorem history_lines_numbered (h : list str) (j : nat) (w : str) :
  nth_error h j = Some w ->
  nth_error (history_lines h) (List.length h - 1 - j)
  = Some (history_line (Z.of_nat j + 1) w) /\
  List.length (history_lines h) = List.length h /\
  history_lines [] = [msg_no_words].
Proof.
  intros Hj.
  assert (Hlt : j < List.length h)
    by (apply nth_error_Some; rewrite Hj; discriminate).
  destruct h as [|a h']; [destruct j; discriminate Hj|].
  set (h := a :: h') in *.
  change (history_lines h)
    with (map (fun iw => history_line (Z.of_nat (List.length h) - fst iw)
                                      (snd iw))
              (enumerate_from 0 (rev h))).
  split; [|split; [|reflexivity]].
  - rewrite nth_error_map, enumerate_from_nth, nth_error_rev.
    assert (Hk : Nat.ltb (List.length h - 1 - j) (List.length h) = true)
      by (apply Nat.ltb_lt; lia).
    rewrite Hk.
    replace (List.length h - S (List.length h - 1 - j)) with j by lia.
    rewrite Hj; cbn [option_map fst snd]; do 2 f_equal; lia.
  - rewrite length_map, enumerate_from_length, length_rev; reflexivity.
Qed.

Lemma history_lines_numbered_witness :
  let h := [lit "apple"; lit "elephant"; lit "tea"] in
  nth_error h 1 = Some (lit "elephant") /\
  nth_error (history_lines h) (List.length h - 1 - 1)
  = Some (history_line (Z.of_nat 1 + 1) (lit "elephant")) /\
  history_lines h = [lit "3. tea"; lit "2. elephant"; lit "1. apple"].
Proof.
  intros h.
  assert (H : nth_error h 1 = Some (lit "elephant")) by reflexivity.
  split; [exact H|]; split.
  - exact (proj1 (history_lines_numbered h 1 H)).
  - vm_compute; reflexivity.
Defined.

(** ** Whitespace around a word *)

(** X14.  Only the stripped form of the input matters: two inputs with the
    same stripped form get the same outcome and leave the same session, in
    both games.  In particular blanks typed around a word change nothing,
    and the empty input behaves like a blank one. *)
Theorem surrounding_whitespace_is_ignored (u v : str) :
  strip u = strip v ->
  (forall s : Solo.Session, Solo.submit s u = Solo.submit s v) /\
  (forall s : TwoPlayer.Session, TwoPlayer.submit s u = TwoPlayer.submit s v).
Proof.
  intros E.
  assert (Hsolo : forall (s : Solo.Session) (x : str),
             Solo.submit s x = Solo.submit s (strip x)).
  { intros s x; destruct (strip x) as [|c t] eqn:Ex.
    - rewrite (solo_submit_rejected s x Ex); reflexivity.
    - assert (Hx : truthy x = true)
        by (apply truthy_true, strip_nonempty; rewrite Ex; discriminate).
      assert (Hsx : truthy (strip x) = true) by (rewrite Ex; reflexivity).
      rewrite <- Ex; unfold Solo.submit.
      rewrite strip_idem, Hx, Hsx; reflexivity. }
  assert (Htwo : forall (s : TwoPlayer.Session) (x : str),
             TwoPlayer.submit s x = TwoPlayer.submit s (strip x)).
  { intros s x; destruct (strip x) as [|c t] eqn:Ex.
    - rewrite (two_submit_rejected s x Ex); reflexivity.
    - assert (Hx : truthy x = true)
        by (apply truthy_true, strip_nonempty; rewrite Ex; discriminate).
      assert (Hsx : truthy (strip x) = true) by (rewrite Ex; reflexivity).
      rewrite <- Ex; unfold TwoPlayer.submit.
      rewrite strip_idem, Hx, Hsx; reflexivity. }
  split; intros s.
  - rewrite (Hsolo s u), (Hsolo s v), E; reflexivity.
  - rewrite (Htwo s u), (Htwo s v), E; reflexivity.
Qed.

Lemma surrounding_whitespace_is_ignored_witness :
  let u := lit "  elephant" in
  let v := lit "elephant   " in
  let s := TwoPlayer.play None [SubmitWord (lit "apple")] in
  strip u = strip v /\ TwoPlayer.submit s u = TwoPlayer.submit s v.
Proof.
  intros u v s.
  assert (E : strip u = strip v) by (vm_compute; reflexivity).
  split; [exact E|].
  exact (proj2 (surrounding_whitespace_is_ignored u v E) s).
Defined.

(** X15.  A fresh game takes any word: right after [initialize_game], in
    both games, every input that is not blank is accepted, whatever it
    starts with. *)
Theorem first_word_is_free (u : str) :
  strip u <> [] ->
  (forall prev, snd (Solo.submit (Solo.initialize_game prev) u)
                = Accepted (strip u)) /\
  (forall prev, snd (TwoPlayer.submit (TwoPlayer.initialize_game prev) u)
                = Accepted (strip u)).
Proof.
  intros Hne; split; intros prev.
  - rewrite (@solo_submit_accepted (Solo.initialize_game prev) u Hne);
      [reflexivity | intros [] | left; reflexivity].
  - rewrite (@two_submit_accepted (TwoPlayer.initialize_game prev) u Hne);
      [reflexivity | intros [] | left; reflexivity].
Qed.

Lemma first_word_is_free_witness :
  let u := lit " zebra" in
  strip u <> [] /\
  snd (Solo.submit (Solo.initialize_game None) u) = Accepted (strip u).
Proof.
  intros u.
  assert (Hne : strip u <> []) by (vm_compute; discriminate).
  split; [exact Hne|].
  exact (proj1 (first_word_is_free u Hne) None).
Defined.
